(** * Encoder sampler of rham/linear/firmware/src/encoder.cpp

    A shallow embedding of the magnetic-encoder driver: its two static
    variables, the Arduino primitives it calls (as operations on an explicit
    board state that also records every call in a trace), and the driver
    functions written in a small state monad, one Rocq definition per C++
    function. *)

From Stdlib Require Import ZArith List String Ascii DecimalString Sorted Lia.
From Stdlib Require DecimalPos DecimalZ.
From stdpp Require Import base option gmap.
Import ListNotations.

Local Open Scope Z_scope.

(** ** Arduino constants used by the driver *)

Inductive level := LOW | HIGH.
Inductive pin_mode := INPUT | OUTPUT.
Inductive bit_order := LSBFIRST | MSBFIRST.
Inductive spi_mode := SPI_MODE0 | SPI_MODE1 | SPI_MODE2 | SPI_MODE3.

(** Pin numbers.  [ENCODER_SCK], [ENCODER_DO] and [ENCODER_SS] are the
    macros of config.h, [SS] and [MOSI] the ones of the board's Arduino
    core; neither header is part of the sources at hand, so the five
    numbers are parameters of the development. *)
Record board := {
  ENCODER_SCK : Z;
  ENCODER_DO : Z;
  ENCODER_SS : Z;
  SS : Z;
  MOSI : Z
}.

(** ** Board state and trace *)

(** One entry per call of an Arduino primitive.  [EvTransfer16] carries, next
    to the word sent and the word captured, the value of the millisecond
    clock at which the transfer took place (a ghost stamp: the code does not
    read it). *)
Inductive event :=
| EvSpiBegin (sck miso mosi ss : Z)
| EvSetBitOrder (o : bit_order)
| EvSetFrequency (hz : Z)
| EvSetDataMode (dm : spi_mode)
| EvPinMode (pin : Z) (pm : pin_mode)
| EvDigitalWrite (pin : Z) (l : level)
| EvDelayMicroseconds (us : Z)
| EvTransfer16 (at_ms : Z) (sent captured : Z)
| EvPrintf (text : string).

(** The machine: what the board holds and the two statics of encoder.cpp.
    [now] is the value [millis()] reports; [miso n] is the word the sensor
    clocks back on the [n]-th transfer since power-up; [pin_modes] and
    [pin_levels] hold what [pinMode] and [digitalWrite] last set on a pin
    (no entry: never set). *)
Record machine := {
  now : Z;
  miso : nat -> Z;
  pin_modes : gmap Z pin_mode;
  pin_levels : gmap Z level;
  trace : list event;
  last_update : Z;
  last_encoder_value : Z
}.

(** ** Fixed-width integers *)

(** Conversion to [uint16_t]. *)
Definition to_u16 (x : Z) : Z := x mod 65536.

(** ** Counting bus transactions in a trace *)

(** The clock stamps of the transfers of a trace, oldest first. *)
Fixpoint transfer_times (tr : list event) : list Z :=
  match tr with
  | [] => []
  | EvTransfer16 t _ _ :: tr' => t :: transfer_times tr'
  | _ :: tr' => transfer_times tr'
  end.

(** The number of transfers of a trace. *)
Definition bus_transfers (tr : list event) : nat :=
  length (transfer_times tr).

(** ** State monad over the machine *)

Definition M (A : Type) : Type := machine -> A * machine.

Definition ret {A} (a : A) : M A := fun m => (a, m).

Definition bind {A B} (c : M A) (k : A -> M B) : M B :=
  fun m => let (a, m') := c m in k a m'.

Declare Scope drv_scope.
Delimit Scope drv_scope with drv.
Notation "x <-- c ;; k" := (bind c (fun x => k))
  (at level 100, c at next level, right associativity) : drv_scope.
Notation "c ;; k" := (bind c (fun _ => k))
  (at level 100, right associativity) : drv_scope.

Definition when (b : bool) (c : M unit) : M unit :=
  if b then c else ret tt.

Definition exec {A} (c : M A) (m : machine) : machine := snd (c m).
Definition eval {A} (c : M A) (m : machine) : A := fst (c m).

(** ** Primitives *)

Definition emit (e : event) : M unit := fun m =>
  (tt, {| now := now m; miso := miso m;
          pin_modes := pin_modes m; pin_levels := pin_levels m;
          trace := trace m ++ [e];
          last_update := last_update m;
          last_encoder_value := last_encoder_value m |}).

(** [millis()].  A call of the driver is short against the millisecond
    clock: the reads it makes see one clock value, and time passes between
    calls (see [elapse] below). *)
Definition millis : M Z := fun m => (now m, m).

Definition delayMicroseconds (us : Z) : M unit := emit (EvDelayMicroseconds us).

Definition pinMode (pin : Z) (pm : pin_mode) : M unit := fun m =>
  emit (EvPinMode pin pm)
    {| now := now m; miso := miso m;
       pin_modes := <[pin := pm]> (pin_modes m); pin_levels := pin_levels m;
       trace := trace m;
       last_update := last_update m;
       last_encoder_value := last_encoder_value m |}.

Definition digitalWrite (pin : Z) (l : level) : M unit := fun m =>
  emit (EvDigitalWrite pin l)
    {| now := now m; miso := miso m;
       pin_modes := pin_modes m; pin_levels := <[pin := l]> (pin_levels m);
       trace := trace m;
       last_update := last_update m;
       last_encoder_value := last_encoder_value m |}.

Definition SPI_begin (sck miso_pin mosi ss : Z) : M unit :=
  emit (EvSpiBegin sck miso_pin mosi ss).
Definition SPI_setBitOrder (o : bit_order) : M unit := emit (EvSetBitOrder o).
Definition SPI_setFrequency (hz : Z) : M unit := emit (EvSetFrequency hz).
Definition SPI_setDataMode (dm : spi_mode) : M unit := emit (EvSetDataMode dm).

(** [SPI.transfer16(data)]: the result is a [uint16_t]. *)
Definition SPI_transfer16 (data : Z) : M Z := fun m =>
  let captured := to_u16 (miso m (bus_transfers (trace m))) in
  (captured, snd (emit (EvTransfer16 (now m) (to_u16 data) captured) m)).

Definition shell_printf (text : string) : M unit := emit (EvPrintf text).

(** Assignments to the two statics. *)
Definition set_last_update (t : Z) : M unit := fun m =>
  (tt, {| now := now m; miso := miso m;
          pin_modes := pin_modes m; pin_levels := pin_levels m;
          trace := trace m;
          last_update := t;
          last_encoder_value := last_encoder_value m |}).

Definition set_last_encoder_value (v : Z) : M unit := fun m =>
  (tt, {| now := now m; miso := miso m;
          pin_modes := pin_modes m; pin_levels := pin_levels m;
          trace := trace m;
          last_update := last_update m;
          last_encoder_value := v |}).

Definition get_last_update : M Z := fun m => (last_update m, m).
Definition get_last_encoder_value : M Z := fun m => (last_encoder_value m, m).

(** The line terminator of the shell, carriage return and line feed. *)
Definition crlf : string :=
  String (ascii_of_nat 13) (String (ascii_of_nat 10) EmptyString).

(** ** The driver *)

Local Open Scope drv_scope.

Section Driver.
Variable cfg : board.

Definition encoder_clock : M unit :=
  delayMicroseconds 1 ;;
  digitalWrite (ENCODER_SCK cfg) HIGH ;;
  delayMicroseconds 1 ;;
  digitalWrite (ENCODER_SCK cfg) LOW.

Definition encoder_read : M Z := get_last_encoder_value.

(** The decode of line 27, on a [uint16_t] promoted to [int]. *)
Definition decode_angle (value : Z) : Z :=
  to_u16 (Z.land (Z.shiftr value 6) 0x3FF).

Definition encoder_update : M unit :=
  digitalWrite (SS cfg) LOW ;;
  delayMicroseconds 1 ;;
  value <-- SPI_transfer16 0 ;;
  digitalWrite (SS cfg) HIGH ;;
  let angle := decode_angle value in
  set_last_encoder_value angle.

Definition encoder_init : M unit :=
  SPI_begin (ENCODER_SCK cfg) (ENCODER_DO cfg) (MOSI cfg) (ENCODER_SS cfg) ;;
  SPI_setBitOrder MSBFIRST ;;
  SPI_setFrequency 1000000 ;;
  SPI_setDataMode SPI_MODE1 ;;
  pinMode (ENCODER_SS cfg) OUTPUT ;;
  digitalWrite (ENCODER_SCK cfg) HIGH ;;
  encoder_update.

Definition encoder_tick : M unit :=
  t <-- millis ;;
  lu <-- get_last_update ;;
  when (t >? lu)
    (t' <-- millis ;;
     set_last_update t' ;;
     encoder_update).

(** [printf("Value: %d\r\n", v)] *)
Definition format_value (v : Z) : string :=
  ("Value: " ++ NilZero.string_of_int (Z.to_int v) ++ crlf)%string.

Definition shell_mag : M unit :=
  v <-- encoder_read ;;
  shell_printf (format_value v).
End Driver.

(** ** Power-up and the environment *)

(** The statics at power-up: [last_update] is initialised to 0 and
    [last_encoder_value], a static without initialiser, is zero-initialised.
    The clock value and the sensor's answers are the environment's. *)
Definition power_on (clock : Z) (sensor : nat -> Z) : machine :=
  {| now := clock; miso := sensor;
     pin_modes := ∅; pin_levels := ∅;
     trace := [];
     last_update := 0;
     last_encoder_value := 0 |}.

(** The largest value of an [unsigned long], the type of [millis()] and of
    [last_update]: 32 bits on the target. *)
Definition ULONG_MAX : Z := 4294967295.

(** The millisecond counter one millisecond later: it rolls over to 0 after
    [ULONG_MAX]. *)
Definition next_ms (t : Z) : Z :=
  if t =? ULONG_MAX then 0 else t + 1.

(** Time passing between two calls of the driver: the millisecond counter
    steps [ms] times. *)
Definition elapse (ms : N) (m : machine) : machine :=
  {| now := N.iter ms next_ms (now m); miso := miso m;
     pin_modes := pin_modes m; pin_levels := pin_levels m;
     trace := trace m;
     last_update := last_update m;
     last_encoder_value := last_encoder_value m |}.

(** What the host does after [encoder_init]: it calls [encoder_tick],
    [encoder_read] or the [mag] shell command, and time passes. *)
Inductive call := CallTick | CallRead | CallMag | Elapse (ms : N).

Definition do_call (cfg : board) (c : call) (m : machine) : machine :=
  match c with
  | CallTick => exec (encoder_tick cfg) m
  | CallRead => exec encoder_read m
  | CallMag => exec shell_mag m
  | Elapse ms => elapse ms m
  end.

Definition run (cfg : board) (cs : list call) (m : machine) : machine :=
  fold_left (fun m' c => do_call cfg c m') cs m.

(** [n] successive calls of [encoder_read]: the values returned, and the
    machine afterwards. *)
Fixpoint read_many (n : nat) (m : machine) : list Z * machine :=
  match n with
  | O => ([], m)
  | S n' =>
      let (v, m1) := encoder_read m in
      let (vs, m2) := read_many n' m1 in
      (v :: vs, m2)
  end.

(** The events a trace gained between two machine states. *)
Definition new_events (m m' : machine) : list event :=
  drop (length (trace m)) (trace m').

(** The word the sensor will answer on the next transfer. *)
Definition next_word (m : machine) : Z :=
  to_u16 (miso m (bus_transfers (trace m))).

(** The four bus events of one sample on chip-select pin [cs], taken at
    clock value [t] and capturing [w]. *)
Definition sample_events (cs t w : Z) : list event :=
  [EvDigitalWrite cs LOW; EvDelayMicroseconds 1;
   EvTransfer16 t 0 w; EvDigitalWrite cs HIGH].

(** The machine with [last_update] replaced, as the assignment of line 46
    leaves it. *)
Definition with_last_update (t : Z) (m : machine) : machine :=
  exec (set_last_update t) m.

(** Projections of a machine given field by field, and of the environment's
    steps, without unfolding anything else. *)
Ltac fields :=
  cbn [now miso pin_modes pin_levels trace last_update last_encoder_value
       elapse with_last_update exec eval set_last_update encoder_read
       get_last_encoder_value fst snd].

(** Two wirings used as concrete inputs: one where the board's [SS] is the
    pin config.h names [ENCODER_SS], one where the encoder's chip-select is
    wired to another pin than the board's [SS]. *)
Definition shared_cs_board : board :=
  {| ENCODER_SCK := 18; ENCODER_DO := 19; ENCODER_SS := 5; SS := 5; MOSI := 23 |}.

Definition split_cs_board : board :=
  {| ENCODER_SCK := 18; ENCODER_DO := 19; ENCODER_SS := 15; SS := 5; MOSI := 23 |}.

(** A stub sensor answering [first] on the first transfer and [later] on
    all the following ones. *)
Definition stub_bus (first later : Z) : nat -> Z :=
  fun n => match n with O => first | S _ => later end.

(** The six calls [encoder_init] makes before its sample. *)
Definition init_events (cfg : board) : list event :=
  [EvSpiBegin (ENCODER_SCK cfg) (ENCODER_DO cfg) (MOSI cfg) (ENCODER_SS cfg);
   EvSetBitOrder MSBFIRST; EvSetFrequency 1000000; EvSetDataMode SPI_MODE1;
   EvPinMode (ENCODER_SS cfg) OUTPUT; EvDigitalWrite (ENCODER_SCK cfg) HIGH].

(** [a] is the decode of the word captured by one of the transfers recorded
    in [evs]. *)
Definition angle_from_transfer (evs : list event) (a : Z) : Prop :=
  exists t w, In (EvTransfer16 t 0 w) evs /\ 0 <= w < 65536
              /\ a = Z.land (Z.shiftr w 6) 0x3FF.

Ltac fields_in H :=
  cbn [now miso pin_modes pin_levels trace last_update last_encoder_value
       elapse with_last_update exec eval set_last_update encoder_read
       get_last_encoder_value fst snd] in H.

(** ** Vocabulary for executions *)

(** The word captured by the last transfer of a trace, starting from [acc]
    when the trace has none. *)
Fixpoint last_captured_from (acc : option Z) (tr : list event) : option Z :=
  match tr with
  | [] => acc
  | EvTransfer16 _ _ w :: tr' => last_captured_from (Some w) tr'
  | _ :: tr' => last_captured_from acc tr'
  end.

Definition last_captured (tr : list event) : option Z :=
  last_captured_from None tr.

(** A call during which the millisecond clock does not move. *)
Definition is_instant (c : call) : bool :=
  match c with
  | Elapse ms => N.eqb ms 0
  | _ => true
  end.

(** A host loop that lets [d + 1] milliseconds pass before each tick, for
    the successive [d] of [ds]. *)
Definition paced_ticks (ds : list N) : list call :=
  flat_map (fun d => [Elapse (N.succ d); CallTick]) ds.

(** The clock values at which the ticks of [paced_ticks ds] run, from clock
    value [t]. *)
Fixpoint paced_times (t : Z) (ds : list N) : list Z :=
  match ds with
  | [] => []
  | d :: ds' => (t + Z.of_N (N.succ d)) :: paced_times (t + Z.of_N (N.succ d)) ds'
  end.

(** The calls of an execution that are not observations ([encoder_read],
    [mag]). *)
Definition is_observation (c : call) : bool :=
  match c with
  | CallRead | CallMag => true
  | _ => false
  end.

Definition without_observations (cs : list call) : list call :=
  List.filter (fun c => negb (is_observation c)) cs.

(** The events of a trace that reach the hardware: all but the shell's
    output. *)
Definition is_printf (e : event) : bool :=
  match e with EvPrintf _ => true | _ => false end.

Definition hw_events (tr : list event) : list event :=
  List.filter (fun e => negb (is_printf e)) tr.

(** Two machines that differ at most by what the shell printed. *)
Definition same_but_output (m1 m2 : machine) : Prop :=
  now m1 = now m2 /\ miso m1 = miso m2
  /\ pin_modes m1 = pin_modes m2 /\ pin_levels m1 = pin_levels m2
  /\ hw_events (trace m1) = hw_events (trace m2)
  /\ last_update m1 = last_update m2
  /\ last_encoder_value m1 = last_encoder_value m2.

(** The milliseconds that pass during an execution. *)
Fixpoint elapsed_ms (cs : list call) : Z :=
  match cs with
  | [] => 0
  | Elapse ms :: cs' => Z.of_N ms + elapsed_ms cs'
  | _ :: cs' => elapsed_ms cs'
  end.

(** The number of calls of [encoder_tick] in an execution. *)
Definition ticks_in (cs : list call) : nat :=
  length (List.filter (fun c => match c with CallTick => true | _ => false end) cs).

(** * Properties *)

(** ** Traces *)

Lemma transfer_times_app (tr tr' : list event) :
  transfer_times (tr ++ tr') = transfer_times tr ++ transfer_times tr'.
Proof.
  induction tr as [|e tr IH]; simpl; [reflexivity|].
  destruct e; simpl; rewrite ?IH; reflexivity.
Qed.

Lemma bus_transfers_app (tr tr' : list event) :
  bus_transfers (tr ++ tr') = (bus_transfers tr + bus_transfers tr')%nat.
Proof.
  unfold bus_transfers. rewrite transfer_times_app. apply length_app.
Qed.

Lemma new_events_app (m m' : machine) (evs : list event) :
  trace m' = trace m ++ evs -> new_events m m' = evs.
Proof.
  intros E. unfold new_events. rewrite E. apply drop_app_length.
Qed.

(** ** Sequencing *)

Lemma exec_seq {A} (c : M A) (k : M unit) (m : machine) :
  exec (c ;; k) m = exec k (exec c m).
Proof. unfold exec, bind. destruct (c m). reflexivity. Qed.

(** ** The millisecond counter *)

(** As long as the counter does not pass [ULONG_MAX], [ms] milliseconds add
    [ms] to it. *)
Lemma clock_no_rollover (ms : N) (t : Z) :
  t + Z.of_N ms <= ULONG_MAX -> N.iter ms next_ms t = t + Z.of_N ms.
Proof.
  induction ms as [|ms IH] using N.peano_ind; intros H.
  - simpl. lia.
  - rewrite N.iter_succ, IH by lia. unfold next_ms.
    destruct (Z.eqb_spec (t + Z.of_N ms) ULONG_MAX) as [E|E]; lia.
Qed.

(** A counter within the range of [unsigned long] stays within it. *)
Lemma clock_in_range (ms : N) (t : Z) :
  0 <= t <= ULONG_MAX -> 0 <= N.iter ms next_ms t <= ULONG_MAX.
Proof.
  intros H. induction ms as [|ms IH] using N.peano_ind.
  - simpl. exact H.
  - rewrite N.iter_succ. set (x := N.iter ms next_ms t) in *. unfold next_ms.
    destruct (Z.eqb_spec x ULONG_MAX) as [E|E]; unfold ULONG_MAX in *; lia.
Qed.

(** ** The decode *)

Lemma to_u16_small (x : Z) : 0 <= x < 65536 -> to_u16 x = x.
Proof. intros H. unfold to_u16. apply Z.mod_small. exact H. Qed.

Lemma to_u16_range (x : Z) : 0 <= to_u16 x < 65536.
Proof. unfold to_u16. apply Z.mod_pos_bound. lia. Qed.

Lemma mask10_range (x : Z) : 0 <= Z.land x 0x3FF < 1024.
Proof.
  change 0x3FF with (Z.ones 10). rewrite Z.land_ones by lia.
  apply Z.mod_pos_bound. reflexivity.
Qed.

Lemma decode_angle_eq (value : Z) :
  decode_angle value = Z.land (Z.shiftr value 6) 0x3FF.
Proof.
  unfold decode_angle. apply to_u16_small.
  pose proof (mask10_range (Z.shiftr value 6)). lia.
Qed.

Lemma decode_angle_range (value : Z) : 0 <= decode_angle value <= 1023.
Proof.
  rewrite decode_angle_eq. pose proof (mask10_range (Z.shiftr value 6)). lia.
Qed.

(** ** One physical sample *)

Lemma encoder_update_exec (cfg : board) (m : machine) :
  exec (encoder_update cfg) m =
  {| now := now m; miso := miso m;
     pin_modes := pin_modes m;
     pin_levels := <[SS cfg := HIGH]> (<[SS cfg := LOW]> (pin_levels m));
     trace := trace m ++ sample_events (SS cfg) (now m) (next_word m);
     last_update := last_update m;
     last_encoder_value := decode_angle (next_word m) |}.
Proof.
  unfold next_word, sample_events.
  cbv [exec encoder_update bind digitalWrite delayMicroseconds
       SPI_transfer16 set_last_encoder_value emit snd
       now miso pin_modes pin_levels trace last_update last_encoder_value].
  rewrite !bus_transfers_app. cbn [bus_transfers transfer_times length].
  rewrite !Nat.add_0_r, <- !app_assoc. reflexivity.
Qed.

Lemma encoder_tick_exec (cfg : board) (m : machine) :
  exec (encoder_tick cfg) m =
  if now m >? last_update m
  then exec (encoder_update cfg) (with_last_update (now m) m)
  else m.
Proof.
  unfold exec at 1.
  cbv [encoder_tick bind millis get_last_update when with_last_update].
  destruct (now m >? last_update m); [|reflexivity].
  unfold exec, bind. destruct (set_last_update (now m) m) as [[] m1].
  reflexivity.
Qed.

Lemma encoder_read_exec (m : machine) : encoder_read m = (last_encoder_value m, m).
Proof. reflexivity. Qed.

(** ** The claims *)

(** C1. The angle a physical sample stores is [(V >> 6) & 0x3FF], for every
    16-bit word [V] the transfer captures; 0xFFFF gives 1023, 0x0040 gives 1
    and 0x0000 gives 0. *)
Theorem encoder_update_decode :
  (forall (cfg : board) (m : machine) (V : Z),
      0 <= V < 65536 ->
      miso m (bus_transfers (trace m)) = V ->
      last_encoder_value (exec (encoder_update cfg) m)
      = Z.land (Z.shiftr V 6) 0x3FF)
  /\ decode_angle 0xFFFF = 1023
  /\ decode_angle 0x0040 = 1
  /\ decode_angle 0x0000 = 0.
Proof.
  split; [|repeat split; reflexivity].
  intros cfg m V HV E. rewrite encoder_update_exec. simpl.
  unfold next_word. rewrite E, (to_u16_small V HV). apply decode_angle_eq.
Qed.

Lemma encoder_update_decode_witness :
  0 <= 0xFFFF < 65536
  /\ last_encoder_value
       (exec (encoder_update shared_cs_board) (power_on 0 (stub_bus 0xFFFF 0)))
     = 1023.
Proof.
  split; [lia|].
  apply (proj1 encoder_update_decode shared_cs_board
           (power_on 0 (stub_bus 0xFFFF 0)) 0xFFFF); [lia | reflexivity].
Defined.

(** C2. When the clock value is strictly greater than the stored
    last-sample time, one call of [encoder_tick] performs exactly one
    transfer (the four bus events of one sample are all the trace gains),
    stores the clock value as last-sample time and overwrites the cached
    angle with the decode of the captured word, whatever the angle cached
    before. *)
Theorem encoder_tick_samples (cfg : board) (m : machine) :
  last_update m < now m ->
  let m' := exec (encoder_tick cfg) m in
  bus_transfers (trace m') = S (bus_transfers (trace m))
  /\ new_events m m' = sample_events (SS cfg) (now m) (next_word m)
  /\ last_update m' = now m
  /\ last_encoder_value m' = Z.land (Z.shiftr (next_word m) 6) 0x3FF.
Proof.
  intros Hlt m'. subst m'. rewrite encoder_tick_exec.
  replace (now m >? last_update m) with true by (symmetry; apply Z.gtb_lt; lia).
  rewrite encoder_update_exec. simpl.
  split; [|split; [|split]].
  - rewrite bus_transfers_app. unfold bus_transfers at 2. simpl. lia.
  - apply new_events_app. reflexivity.
  - reflexivity.
  - apply decode_angle_eq.
Qed.

Lemma encoder_tick_samples_witness :
  last_update (power_on 7 (stub_bus 0 0)) < now (power_on 7 (stub_bus 0 0))
  /\ bus_transfers
       (trace (exec (encoder_tick shared_cs_board) (power_on 7 (stub_bus 0 0))))
     = 1%nat
  /\ last_update (exec (encoder_tick shared_cs_board) (power_on 7 (stub_bus 0 0)))
     = 7
  /\ last_encoder_value
       (exec (encoder_tick shared_cs_board) (power_on 7 (stub_bus 0 0)))
     = 0.
Proof.
  assert (H : last_update (power_on 7 (stub_bus 0 0))
              < now (power_on 7 (stub_bus 0 0))) by (simpl; lia).
  split; [exact H|].
  destruct (encoder_tick_samples shared_cs_board (power_on 7 (stub_bus 0 0)) H)
    as (Hn & _ & Ht & Hv).
  split; [exact Hn|]. split; [exact Ht | exact Hv].
Defined.

(** C3, as the code has it. Two successive calls of [encoder_tick] at one
    clock value: the second call changes nothing at all (no bus event, same
    cached angle, same last-sample time), and together the two calls
    perform one transfer when the clock value is strictly greater than the
    stored last-sample time, and none otherwise. *)
Theorem encoder_tick_twice (cfg : board) (m : machine) :
  let m1 := exec (encoder_tick cfg) m in
  let m2 := exec (encoder_tick cfg) m1 in
  now m1 = now m
  /\ m2 = m1
  /\ bus_transfers (trace m2)
     = (bus_transfers (trace m) + if now m >? last_update m then 1 else 0)%nat.
Proof.
  intros m1 m2. subst m2 m1. rewrite !encoder_tick_exec.
  destruct (now m >? last_update m) eqn:G.
  - rewrite !encoder_update_exec. simpl.
    rewrite Z.gtb_ltb, Z.ltb_irrefl.
    split; [reflexivity|]. split; [reflexivity|].
    simpl. rewrite bus_transfers_app. reflexivity.
  - rewrite G. split; [reflexivity|]. split; [reflexivity|]. lia.
Qed.

(** C3 as stated fails: at power-up with the clock still at 0 (not greater
    than the stored last-sample time 0) two calls of [encoder_tick] perform
    no transfer, not one. *)
Lemma encoder_tick_twice_no_transfer :
  let m := power_on 0 (stub_bus 0 0) in
  bus_transfers
    (trace (exec (encoder_tick shared_cs_board)
              (exec (encoder_tick shared_cs_board) m)))
  = bus_transfers (trace m)
  /\ bus_transfers
       (trace (exec (encoder_tick shared_cs_board)
                 (exec (encoder_tick shared_cs_board) m)))
     <> S (bus_transfers (trace m)).
Proof. simpl. split; [reflexivity | discriminate]. Qed.

(** C4. Any number of successive calls of [encoder_read] return the cached
    angle each time and leave the whole machine as it was: no bus event, the
    same cached angle and the same last-sample time. *)
Theorem encoder_read_idempotent (n : nat) (m : machine) :
  read_many n m = (repeat (last_encoder_value m) n, m).
Proof.
  induction n as [|n IH]; simpl; [reflexivity|].
  rewrite IH. reflexivity.
Qed.

(** C10. Before [encoder_init] has run, [encoder_read] returns 0, the
    zero-initialised static, though no transfer has taken place; the [mag]
    command called then prints that 0. *)
Theorem encoder_read_before_init (clock : Z) (sensor : nat -> Z) :
  let m := power_on clock sensor in
  eval encoder_read m = 0
  /\ bus_transfers (trace m) = 0%nat
  /\ new_events m (exec shell_mag m)
     = [EvPrintf ("Value: 0" ++ crlf)%string].
Proof. repeat split. Qed.

(** ** Initialisation *)

Lemma encoder_init_exec (cfg : board) (m : machine) :
  exec (encoder_init cfg) m =
  {| now := now m; miso := miso m;
     pin_modes := <[ENCODER_SS cfg := OUTPUT]> (pin_modes m);
     pin_levels :=
       <[SS cfg := HIGH]>
         (<[SS cfg := LOW]> (<[ENCODER_SCK cfg := HIGH]> (pin_levels m)));
     trace := trace m ++ init_events cfg
                ++ sample_events (SS cfg) (now m) (next_word m);
     last_update := last_update m;
     last_encoder_value := decode_angle (next_word m) |}.
Proof.
  unfold encoder_init. rewrite !exec_seq, encoder_update_exec.
  unfold next_word, init_events.
  cbv [exec SPI_begin SPI_setBitOrder SPI_setFrequency SPI_setDataMode
       pinMode digitalWrite emit snd
       now miso pin_modes pin_levels trace last_update last_encoder_value].
  rewrite !bus_transfers_app. cbn [bus_transfers transfer_times length].
  rewrite !Nat.add_0_r, <- !app_assoc. reflexivity.
Qed.

(** C5. [encoder_init] performs exactly one transfer, unconditionally, and
    [encoder_read] called next returns the decode of the word captured; with
    a stub bus answering 0x8000 that is 512, and when the clock then
    advances by 1 ms (the counter not being at its last value before it
    rolls over) and the stub answers 0xFFC0, one [encoder_tick] makes
    [encoder_read] return 1023. *)
Theorem encoder_init_then_read (cfg : board) (m : machine) :
  let k := bus_transfers (trace m) in
  let m1 := exec (encoder_init cfg) m in
  let m2 := exec (encoder_tick cfg) (elapse 1 m1) in
  (bus_transfers (trace m1) = S k
   /\ eval encoder_read m1 = Z.land (Z.shiftr (to_u16 (miso m k)) 6) 0x3FF)
  /\ (miso m k = 0x8000 -> eval encoder_read m1 = 512)
  /\ (miso m k = 0x8000 -> miso m (S k) = 0xFFC0 ->
      last_update m <= now m -> now m < ULONG_MAX ->
      now (elapse 1 m1) = now m + 1 /\ eval encoder_read m2 = 1023).
Proof.
  intros k m1 m2. subst k m1 m2. rewrite encoder_init_exec.
  assert (Hk : bus_transfers
                 (trace m ++ init_events cfg
                    ++ sample_events (SS cfg) (now m) (next_word m))
               = S (bus_transfers (trace m))).
  { rewrite !bus_transfers_app. unfold bus_transfers at 2 3. simpl. lia. }
  split; [split|split].
  - exact Hk.
  - fields. apply decode_angle_eq.
  - intros E. fields. unfold next_word. rewrite E. reflexivity.
  - intros _ E2 Hclk Hmax. rewrite encoder_tick_exec. fields.
    rewrite (clock_no_rollover 1 (now m)) by (simpl; lia).
    split; [reflexivity|].
    replace (now m + Z.of_N 1 >? last_update m) with true
      by (symmetry; apply Z.gtb_lt; lia).
    rewrite encoder_update_exec. fields. unfold next_word in Hk |- *. fields.
    rewrite Hk, E2. reflexivity.
Qed.

Lemma encoder_init_then_read_witness :
  let m := power_on 0 (stub_bus 0x8000 0xFFC0) in
  let m1 := exec (encoder_init shared_cs_board) m in
  (miso m 0%nat = 0x8000 /\ miso m 1%nat = 0xFFC0
   /\ last_update m <= now m /\ now m < ULONG_MAX)
  /\ eval encoder_read m1 = 512
  /\ eval encoder_read (exec (encoder_tick shared_cs_board) (elapse 1 m1)) = 1023.
Proof.
  intros m m1.
  assert (H0 : miso m (bus_transfers (trace m)) = 0x8000) by reflexivity.
  assert (H1 : miso m (S (bus_transfers (trace m))) = 0xFFC0) by reflexivity.
  assert (Hc : last_update m <= now m) by (simpl; lia).
  assert (Hm : now m < ULONG_MAX) by reflexivity.
  split; [split; [exact H0 | split; [exact H1 | split; [exact Hc | exact Hm]]]|].
  destruct (encoder_init_then_read shared_cs_board m) as (_ & Hr & Ht).
  split; [exact (Hr H0) | exact (proj2 (Ht H0 H1 Hc Hm))].
Defined.

(** At the last clock value before the counter rolls over, the same
    scenario leaves the first sample cached: the clock reads 0 one
    millisecond later, the gate of [encoder_tick] stays closed and
    [encoder_read] still returns 512. *)
Lemma encoder_init_then_read_rollover :
  let m := power_on ULONG_MAX (stub_bus 0x8000 0xFFC0) in
  let m1 := exec (encoder_init shared_cs_board) m in
  let m2 := exec (encoder_tick shared_cs_board) (elapse 1 m1) in
  now (elapse 1 m1) = 0
  /\ eval encoder_read m1 = 512
  /\ eval encoder_read m2 = 512
  /\ bus_transfers (trace m2) = 1%nat.
Proof. vm_compute. repeat split. Qed.

(** ** Executions after initialisation *)

(** What one call of the host does to the trace and to the statics: either
    no transfer and both statics kept, or (a tick whose gate is open) the
    events of one sample, with the statics set from it. *)
Lemma do_call_effect (cfg : board) (c : call) (m : machine) :
  exists evs,
    trace (do_call cfg c m) = trace m ++ evs
    /\ ((transfer_times evs = []
         /\ last_update (do_call cfg c m) = last_update m
         /\ last_encoder_value (do_call cfg c m) = last_encoder_value m)
        \/ (last_update m < now m
            /\ evs = sample_events (SS cfg) (now m) (next_word m)
            /\ last_update (do_call cfg c m) = now m
            /\ last_encoder_value (do_call cfg c m)
               = decode_angle (next_word m))).
Proof.
  destruct c; simpl.
  - rewrite encoder_tick_exec. destruct (now m >? last_update m) eqn:G.
    + rewrite encoder_update_exec. simpl. eexists. split; [reflexivity|].
      right. apply Z.gtb_lt in G. repeat split. lia.
    + exists []. rewrite app_nil_r. split; [reflexivity|]. left. repeat split.
  - exists []. rewrite app_nil_r. split; [reflexivity|]. left. repeat split.
  - eexists. split; [reflexivity|]. left. repeat split.
  - exists []. rewrite app_nil_r. split; [reflexivity|]. left. repeat split.
Qed.

Lemma sample_events_angle (cs t : Z) (m : machine) :
  angle_from_transfer (sample_events cs t (next_word m))
    (decode_angle (next_word m)).
Proof.
  exists t, (next_word m). split; [simpl; tauto|].
  split; [apply to_u16_range | apply decode_angle_eq].
Qed.

Lemma angle_from_transfer_app (evs evs' : list event) (a : Z) :
  angle_from_transfer evs a \/ angle_from_transfer evs' a ->
  angle_from_transfer (evs ++ evs') a.
Proof.
  intros [(t & w & Hin & Hw)|(t & w & Hin & Hw)]; exists t, w;
    (split; [apply in_or_app; tauto | exact Hw]).
Qed.

Lemma run_angle_from_transfer (cfg : board) (cs : list call) :
  forall (m0 mx : machine) (evs : list event),
    trace mx = trace m0 ++ evs ->
    angle_from_transfer evs (last_encoder_value mx) ->
    exists evs', trace (run cfg cs mx) = trace m0 ++ evs'
                 /\ angle_from_transfer evs' (last_encoder_value (run cfg cs mx)).
Proof.
  induction cs as [|c cs IH]; intros m0 mx evs Htr Hang; simpl.
  - exists evs. split; assumption.
  - destruct (do_call_effect cfg c mx) as (evc & Hc & Hcase).
    apply (IH m0 (do_call cfg c mx) (evs ++ evc)).
    + rewrite Hc, Htr, app_assoc. reflexivity.
    + apply angle_from_transfer_app.
      destruct Hcase as [(_ & _ & Ha)|(_ & He & _ & Ha)].
      * left. rewrite Ha. exact Hang.
      * right. rewrite Ha, He. apply sample_events_angle.
Qed.

(** C6. After [encoder_init], and after any sequence of calls of
    [encoder_tick], [encoder_read] and the [mag] command (with time passing
    in between), the cached angle lies in 0..1023 and is the decode of the
    word captured by one of the transfers performed since [encoder_init]
    was entered. *)
Theorem cached_angle_invariant (cfg : board) (m : machine) (cs : list call) :
  let m' := run cfg cs (exec (encoder_init cfg) m) in
  0 <= last_encoder_value m' <= 1023
  /\ angle_from_transfer (new_events m m') (last_encoder_value m').
Proof.
  intros m'.
  destruct (run_angle_from_transfer cfg cs m (exec (encoder_init cfg) m)
              (init_events cfg ++ sample_events (SS cfg) (now m) (next_word m)))
    as (evs & Htr & Hang).
  - rewrite encoder_init_exec. reflexivity.
  - rewrite encoder_init_exec. fields.
    apply angle_from_transfer_app. right. apply sample_events_angle.
  - fold m' in Htr, Hang. rewrite (new_events_app m m' evs Htr).
    split; [|exact Hang].
    destruct Hang as (t & w & _ & _ & ->).
    pose proof (mask10_range (Z.shiftr w 6)). lia.
Qed.

(** ** The millisecond gate along an execution *)

Lemma StronglySorted_snoc (ts : list Z) (t : Z) :
  StronglySorted Z.lt ts -> Forall (fun x => x < t) ts ->
  StronglySorted Z.lt (ts ++ [t]).
Proof.
  induction 1 as [|x ts Hs IH Hx]; intros Hlt; simpl.
  - constructor; constructor.
  - inversion Hlt as [|? ? Hxt Hts]; subst.
    constructor; [apply IH; exact Hts|].
    apply Forall_app. split; [exact Hx | constructor; [exact Hxt | constructor]].
Qed.

(** The stamps of the transfers made since some point stay strictly
    increasing and below the stored last-sample time: a tick transfers only
    at a clock value above [last_update], and stores that value. *)
Lemma run_transfer_times (cfg : board) (cs : list call) :
  forall (m0 mx : machine) (evs : list event),
    trace mx = trace m0 ++ evs ->
    StronglySorted Z.lt (transfer_times evs) ->
    Forall (fun t => t <= last_update mx) (transfer_times evs) ->
    exists evs', trace (run cfg cs mx) = trace m0 ++ evs'
                 /\ StronglySorted Z.lt (transfer_times evs').
Proof.
  induction cs as [|c cs IH]; intros m0 mx evs Htr Hs Hle; simpl.
  - exists evs. split; assumption.
  - destruct (do_call_effect cfg c mx) as (evc & Hc & Hcase).
    apply (IH m0 (do_call cfg c mx) (evs ++ evc)).
    + rewrite Hc, Htr, app_assoc. reflexivity.
    + rewrite transfer_times_app.
      destruct Hcase as [(Hn & _ & _)|(Hgate & He & _ & _)].
      * rewrite Hn, app_nil_r. exact Hs.
      * rewrite He. simpl. apply StronglySorted_snoc; [exact Hs|].
        eapply Forall_impl; [exact Hle|]. simpl. intros t Ht. lia.
    + rewrite transfer_times_app.
      destruct Hcase as [(Hn & Hu & _)|(Hgate & He & Hu & _)].
      * rewrite Hn, app_nil_r, Hu. exact Hle.
      * rewrite He, Hu. simpl. apply Forall_app. split.
        -- eapply Forall_impl; [exact Hle|]. simpl. intros t Ht. lia.
        -- constructor; [lia | constructor].
Qed.

Lemma StronglySorted_lt_NoDup (ts : list Z) :
  StronglySorted Z.lt ts -> List.NoDup ts.
Proof.
  induction 1 as [|x ts Hs IH Hx]; constructor; [|exact IH].
  intros Hin. rewrite List.Forall_forall in Hx.
  assert (x < x) by (apply Hx; exact Hin). lia.
Qed.

(** C7, as the code has it. In an execution made of [encoder_init] followed
    by any calls of [encoder_tick], [encoder_read] and [mag] with time
    passing in between, [encoder_init] makes one transfer at the clock value
    it is called at, and the transfers made afterwards (those of
    [encoder_tick]) carry strictly increasing millisecond stamps, so at most
    one of them falls in any millisecond. *)
Theorem tick_transfers_once_per_ms (cfg : board) (m : machine) (cs : list call) :
  let m1 := exec (encoder_init cfg) m in
  let m' := run cfg cs m1 in
  transfer_times (new_events m m1) = [now m]
  /\ StronglySorted Z.lt (transfer_times (new_events m1 m'))
  /\ forall t : Z,
       (count_occ Z.eq_dec (transfer_times (new_events m1 m')) t <= 1)%nat.
Proof.
  intros m1 m'. split.
  - rewrite (new_events_app m m1
               (init_events cfg ++ sample_events (SS cfg) (now m) (next_word m))).
    + reflexivity.
    + subst m1. rewrite encoder_init_exec. reflexivity.
  - destruct (run_transfer_times cfg cs m1 m1 []) as (evs & Htr & Hs).
    + rewrite app_nil_r. reflexivity.
    + constructor.
    + constructor.
    + fold m' in Htr. rewrite (new_events_app m1 m' evs Htr).
      split; [exact Hs|]. apply NoDup_count_occ, StronglySorted_lt_NoDup, Hs.
Qed.

(** C7 as stated fails: [encoder_init] called at clock value 5 and one
    [encoder_tick] in that same millisecond perform two transfers, both in
    millisecond 5. *)
Lemma init_and_tick_same_ms :
  let m := power_on 5 (stub_bus 0 0) in
  let m' := run shared_cs_board [CallTick] (exec (encoder_init shared_cs_board) m) in
  now m' = now m
  /\ transfer_times (trace m') = [5; 5]
  /\ count_occ Z.eq_dec (transfer_times (trace m')) 5 = 2%nat.
Proof. vm_compute. repeat split. Qed.

(** ** The chip-select line *)

(** The events of one sample, on the pin the board calls [SS]. *)
Lemma encoder_update_events (cfg : board) (m : machine) :
  new_events m (exec (encoder_update cfg) m)
  = sample_events (SS cfg) (now m) (next_word m).
Proof. apply new_events_app. rewrite encoder_update_exec. reflexivity. Qed.

(** The level [encoder_init] leaves on the pin it configured as output:
    high when that pin is also the board's [SS] (through the sample) or the
    clock pin, and what it was before otherwise. *)
Lemma encoder_init_cs_level (cfg : board) (m : machine) :
  let m' := exec (encoder_init cfg) m in
  pin_modes m' !! ENCODER_SS cfg = Some OUTPUT
  /\ pin_levels m' !! ENCODER_SS cfg
     = if decide (SS cfg = ENCODER_SS cfg) then Some HIGH
       else if decide (ENCODER_SCK cfg = ENCODER_SS cfg) then Some HIGH
       else pin_levels m !! ENCODER_SS cfg.
Proof.
  intros m'. subst m'. rewrite encoder_init_exec. fields. split.
  - apply lookup_insert_eq.
  - rewrite !lookup_insert. repeat case_decide; congruence.
Qed.

(** C8, on a board whose [SS] is not the pin config.h names [ENCODER_SS]
    (15 against 5): after [encoder_init] from power-up, pin 15 is an output
    but has never been driven; the writes went to the clock pin 18 and to
    pin 5. *)
Theorem encoder_init_split_cs :
  let m' := exec (encoder_init split_cs_board) (power_on 0 (stub_bus 0 0)) in
  ENCODER_SS split_cs_board = 15
  /\ pin_modes m' !! 15 = Some OUTPUT
  /\ pin_levels m' !! 15 = None
  /\ pin_levels m' !! 18 = Some HIGH
  /\ pin_levels m' !! 5 = Some HIGH.
Proof. vm_compute. repeat split. Qed.

(** C9, on the same board: a sample after [encoder_init] toggles pin 5, the
    board's [SS], low then high around the delay and the transfer; pin 15,
    the one [encoder_init] configured as output, is left undriven and pin 5
    was never configured. *)
Theorem encoder_update_split_cs :
  let m := exec (encoder_init split_cs_board) (power_on 0 (stub_bus 0 0)) in
  let m' := exec (encoder_update split_cs_board) m in
  pin_modes m !! 15 = Some OUTPUT
  /\ new_events m m'
     = [EvDigitalWrite 5 LOW; EvDelayMicroseconds 1;
        EvTransfer16 0 0 0; EvDigitalWrite 5 HIGH]
  /\ pin_levels m' !! 15 = None
  /\ pin_modes m' !! 5 = None.
Proof. vm_compute. repeat split. Qed.

(** * Further properties of the driver *)

(** ** The decode, as a function of the raw word *)

(** X1. The decode undoes the sensor's framing: a word made of a 10-bit
    angle [a] followed by any 6-bit trailer [s] decodes to [a]. *)
Theorem decode_angle_frame (a s : Z) :
  0 <= a < 1024 -> 0 <= s < 64 -> decode_angle (a * 64 + s) = a.
Proof.
  intros Ha Hs. rewrite decode_angle_eq.
  change 0x3FF with (Z.ones 10). rewrite Z.land_ones by lia.
  rewrite Z.shiftr_div_pow2 by lia. change (2 ^ 6) with 64.
  replace ((a * 64 + s) / 64) with a by (apply Z.div_unique with s; lia).
  apply Z.mod_small. change (2 ^ 10) with 1024. lia.
Qed.

Lemma decode_angle_frame_witness :
  (0 <= 513 < 1024 /\ 0 <= 63 < 64) /\ decode_angle (513 * 64 + 63) = 513.
Proof.
  split; [lia|]. apply decode_angle_frame; lia.
Defined.

(** X2. On a 16-bit word the mask of line 27 clears nothing: the angle is
    the word divided by 64, its top ten bits, and a larger word never
    decodes to a smaller angle. *)
Theorem decode_angle_u16 (V V' : Z) :
  0 <= V <= V' -> V' < 65536 ->
  decode_angle V = V / 64 /\ decode_angle V <= decode_angle V'.
Proof.
  intros HV HV'.
  assert (E : forall W, 0 <= W < 65536 -> decode_angle W = W / 64).
  { intros W HW. rewrite decode_angle_eq.
    change 0x3FF with (Z.ones 10). rewrite Z.land_ones by lia.
    rewrite Z.shiftr_div_pow2 by lia. change (2 ^ 6) with 64.
    apply Z.mod_small. change (2 ^ 10) with 1024.
    split; [apply Z.div_pos; lia|].
    apply Z.div_lt_upper_bound; lia. }
  rewrite !E by lia. split; [reflexivity|].
  apply Z.div_le_mono; lia.
Qed.

Lemma decode_angle_u16_witness :
  (0 <= 0x8000 <= 0xFFC0 /\ 0xFFC0 < 65536)
  /\ decode_angle 0x8000 = 0x8000 / 64
  /\ decode_angle 0x8000 <= decode_angle 0xFFC0.
Proof.
  split; [lia|]. apply decode_angle_u16; lia.
Defined.

(** ** One call of the host, case by case *)

(** Either the call samples (a tick whose gate is open: it is
    [encoder_update] run after the assignment of line 46), or it leaves
    clock apart, pins, bus and statics alone and adds at most shell
    output to the trace. *)
Lemma do_call_shape (cfg : board) (c : call) (m : machine) :
  (c = CallTick /\ last_update m < now m
   /\ do_call cfg c m = exec (encoder_update cfg) (with_last_update (now m) m))
  \/ (exists t evs,
        t = N.iter (Z.to_N (elapsed_ms [c])) next_ms (now m)
        /\ (is_instant c = true -> t = now m)
        /\ (c = CallTick -> now m <= last_update m)
        /\ hw_events evs = []
        /\ do_call cfg c m =
           {| now := t; miso := miso m;
              pin_modes := pin_modes m; pin_levels := pin_levels m;
              trace := trace m ++ evs;
              last_update := last_update m;
              last_encoder_value := last_encoder_value m |}).
Proof.
  destruct c; simpl.
  - rewrite encoder_tick_exec. destruct (now m >? last_update m) eqn:G.
    + left. apply Z.gtb_lt in G. split; [reflexivity|].
      split; [lia | reflexivity].
    + right. exists (now m), []. rewrite app_nil_r.
      assert (now m <= last_update m).
      { destruct (Z.gtb_spec (now m) (last_update m)); [discriminate | lia]. }
      destruct m; repeat split; auto.
  - right. exists (now m), []. rewrite app_nil_r.
    destruct m; repeat split; auto; discriminate.
  - right. exists (now m), [EvPrintf (format_value (last_encoder_value m))].
    destruct m; repeat split; auto; discriminate.
  - right. exists (N.iter ms next_ms (now m)), []. rewrite app_nil_r.
    rewrite Z.add_0_r, N2Z.id.
    repeat split; auto; try discriminate.
    intros E. apply N.eqb_eq in E. subst ms. reflexivity.
Qed.

Lemma hw_events_app (tr tr' : list event) :
  hw_events (tr ++ tr') = hw_events tr ++ hw_events tr'.
Proof. apply List.filter_app. Qed.

Lemma transfer_times_hw_events (tr : list event) :
  transfer_times (hw_events tr) = transfer_times tr.
Proof.
  induction tr as [|e tr IH]; [reflexivity|].
  destruct e; simpl; rewrite ?IH; reflexivity.
Qed.

Lemma last_captured_from_app (acc : option Z) (tr tr' : list event) :
  last_captured_from acc (tr ++ tr')
  = last_captured_from (last_captured_from acc tr) tr'.
Proof.
  revert acc. induction tr as [|e tr IH]; intros acc; [reflexivity|].
  destruct e; simpl; apply IH.
Qed.

Lemma last_captured_from_silent (acc : option Z) (evs : list event) :
  hw_events evs = [] -> last_captured_from acc evs = acc.
Proof.
  revert acc. induction evs as [|e evs IH]; intros acc H; [reflexivity|].
  destruct e; simpl in H; try discriminate. simpl. apply IH, H.
Qed.

(** ** The cached angle is the latest sample *)

Lemma do_call_latest (cfg : board) (c : call) (m : machine) :
  option_map decode_angle (last_captured (trace m)) = Some (last_encoder_value m) ->
  option_map decode_angle (last_captured (trace (do_call cfg c m)))
  = Some (last_encoder_value (do_call cfg c m)).
Proof.
  intros I. unfold last_captured in *.
  destruct (do_call_shape cfg c m) as [(_ & _ & ->)|(d & evs & _ & _ & _ & Hq & ->)].
  - rewrite encoder_update_exec. fields.
    rewrite last_captured_from_app. reflexivity.
  - fields. rewrite last_captured_from_app, (last_captured_from_silent _ _ Hq).
    exact I.
Qed.

(** X3. After [encoder_init] and any further calls, the cached angle is the
    decode of the word captured by the most recent transfer of the trace,
    not of an older one. *)
Theorem cached_angle_is_latest (cfg : board) (m : machine) (cs : list call) :
  let m' := run cfg cs (exec (encoder_init cfg) m) in
  option_map decode_angle (last_captured (trace m'))
  = Some (last_encoder_value m').
Proof.
  intros m'. subst m'.
  assert (I : option_map decode_angle
                (last_captured (trace (exec (encoder_init cfg) m)))
              = Some (last_encoder_value (exec (encoder_init cfg) m))).
  { rewrite encoder_init_exec. fields. unfold last_captured.
    rewrite !last_captured_from_app. reflexivity. }
  revert I. generalize (exec (encoder_init cfg) m) as mx.
  induction cs as [|c cs IH]; intros mx I; simpl; [exact I|].
  apply IH, do_call_latest, I.
Qed.

(** ** The gate never runs ahead of the clock *)

Lemma elapsed_ms_nonneg (cs : list call) : 0 <= elapsed_ms cs.
Proof. induction cs as [|c cs IH]; simpl; [lia|]. destruct c; lia. Qed.

Lemma elapsed_ms_cons (c : call) (cs : list call) :
  elapsed_ms (c :: cs) = elapsed_ms [c] + elapsed_ms cs.
Proof. destruct c; simpl; lia. Qed.

Lemma do_call_last_update (cfg : board) (c : call) (m : machine) :
  last_update m <= last_update (do_call cfg c m).
Proof.
  destruct (do_call_shape cfg c m) as [(_ & G & ->)|(t & evs & _ & _ & _ & _ & ->)].
  - rewrite encoder_update_exec. fields. lia.
  - fields. lia.
Qed.

Lemma run_last_update (cfg : board) (cs : list call) (m : machine) :
  last_update m <= last_update (run cfg cs m).
Proof.
  revert m. induction cs as [|c cs IH]; intros m; simpl; [lia|].
  pose proof (do_call_last_update cfg c m). pose proof (IH (do_call cfg c m)).
  lia.
Qed.

Lemma do_call_no_rollover (cfg : board) (c : call) (m : machine) :
  last_update m <= now m -> now m + elapsed_ms [c] <= ULONG_MAX ->
  now (do_call cfg c m) = now m + elapsed_ms [c]
  /\ last_update (do_call cfg c m) <= now (do_call cfg c m).
Proof.
  intros Hg Hmax. pose proof (elapsed_ms_nonneg [c]) as H0.
  destruct (do_call_shape cfg c m) as [(-> & G & ->)|(t & evs & -> & _ & _ & _ & ->)].
  - rewrite encoder_update_exec. fields. simpl. lia.
  - fields. rewrite clock_no_rollover by (rewrite Z2N.id; lia).
    rewrite Z2N.id by lia. lia.
Qed.

(** Without rollover the clock of an execution is the start value plus the
    milliseconds elapsed, and a last-sample time not ahead of the clock
    stays so. *)
Lemma run_no_rollover (cfg : board) (cs : list call) (m : machine) :
  last_update m <= now m -> now m + elapsed_ms cs <= ULONG_MAX ->
  now (run cfg cs m) = now m + elapsed_ms cs
  /\ last_update (run cfg cs m) <= now (run cfg cs m).
Proof.
  revert m. induction cs as [|c cs IH]; intros m Hg Hmax.
  - simpl. split; lia.
  - rewrite elapsed_ms_cons in Hmax |- *.
    pose proof (elapsed_ms_nonneg cs) as H0.
    destruct (do_call_no_rollover cfg c m Hg) as (Hn & Hl); [lia|].
    change (run cfg (c :: cs) m) with (run cfg cs (do_call cfg c m)).
    destruct (IH (do_call cfg c m) Hl) as (Hn' & Hl'); [lia|].
    split; [lia | exact Hl'].
Qed.

(** X4. The stored last-sample time never goes back along an execution,
    and as long as the millisecond counter does not roll over during the
    execution, a last-sample time that is not ahead of the clock stays so:
    [encoder_tick] only ever stores a clock value it has read. *)
Theorem last_update_behind_clock (cfg : board) (cs : list call) (m : machine) :
  last_update m <= last_update (run cfg cs m)
  /\ (last_update m <= now m -> now m + elapsed_ms cs <= ULONG_MAX ->
      last_update (run cfg cs m) <= now (run cfg cs m)).
Proof.
  split; [apply run_last_update|].
  intros Hg Hmax. apply run_no_rollover; assumption.
Qed.

Lemma last_update_behind_clock_witness :
  let cs := [CallTick; Elapse 3; CallTick; CallMag] in
  let m := power_on 4 (stub_bus 0 0) in
  (last_update m <= now m /\ now m + elapsed_ms cs <= ULONG_MAX)
  /\ last_update (run shared_cs_board cs m) <= now (run shared_cs_board cs m).
Proof.
  intros cs m.
  assert (H : last_update m <= now m) by (simpl; lia).
  assert (H' : now m + elapsed_ms cs <= ULONG_MAX) by (vm_compute; discriminate).
  split; [split; [exact H | exact H']|].
  exact (proj2 (last_update_behind_clock shared_cs_board cs m) H H').
Defined.

(** ** Pins between calls *)

Lemma do_call_pins (cfg : board) (c : call) (m : machine) :
  pin_levels m !! SS cfg = Some HIGH ->
  pin_modes (do_call cfg c m) = pin_modes m
  /\ pin_levels (do_call cfg c m) = pin_levels m.
Proof.
  intros H.
  destruct (do_call_shape cfg c m) as [(_ & _ & ->)|(d & evs & _ & _ & _ & _ & ->)].
  - rewrite encoder_update_exec. fields. split; [reflexivity|].
    rewrite insert_insert_eq. apply insert_id, H.
  - fields. split; reflexivity.
Qed.

(** X5. After [encoder_init] the board's [SS] pin is high, and every later
    call of [encoder_tick], [encoder_read] or [mag] returns with all pin
    modes and all pin levels as [encoder_init] left them: a sample lowers
    [SS] only for the time of its transfer, and every other pin keeps its
    level. *)
Theorem pins_idle_between_calls (cfg : board) (m : machine) (cs : list call) :
  let m1 := exec (encoder_init cfg) m in
  pin_levels m1 !! SS cfg = Some HIGH
  /\ pin_modes (run cfg cs m1) = pin_modes m1
  /\ pin_levels (run cfg cs m1) = pin_levels m1.
Proof.
  intros m1.
  assert (H : pin_levels m1 !! SS cfg = Some HIGH).
  { subst m1. rewrite encoder_init_exec. fields. apply lookup_insert_eq. }
  split; [exact H|].
  revert H. generalize m1 as mx. clear m1.
  induction cs as [|c cs IH]; intros mx H; simpl; [split; reflexivity|].
  destruct (do_call_pins cfg c mx H) as (Hm & Hl).
  destruct (IH (do_call cfg c mx)) as (Hm' & Hl'); [rewrite Hl; exact H|].
  split; congruence.
Qed.

(** ** Machines that differ by shell output only *)

Lemma same_but_output_refl (m : machine) : same_but_output m m.
Proof. repeat split. Qed.

Lemma same_but_output_trans (m1 m2 m3 : machine) :
  same_but_output m1 m2 -> same_but_output m2 m3 -> same_but_output m1 m3.
Proof.
  intros (A1 & A2 & A3 & A4 & A5 & A6 & A7) (B1 & B2 & B3 & B4 & B5 & B6 & B7).
  repeat split; congruence.
Qed.

Lemma next_word_same (m1 m2 : machine) :
  same_but_output m1 m2 -> next_word m1 = next_word m2.
Proof.
  intros (_ & Hmiso & _ & _ & Hev & _). unfold next_word, bus_transfers.
  rewrite <- (transfer_times_hw_events (trace m1)), Hev,
    transfer_times_hw_events, Hmiso. reflexivity.
Qed.

Lemma do_call_same (cfg : board) (c : call) (m1 m2 : machine) :
  same_but_output m1 m2 ->
  same_but_output (do_call cfg c m1) (do_call cfg c m2).
Proof.
  intros H. pose proof (next_word_same m1 m2 H) as Hw.
  destruct H as (H1 & H2 & H3 & H4 & H5 & H6 & H7).
  destruct c; simpl.
  - rewrite !encoder_tick_exec, H1, H6.
    destruct (now m2 >? last_update m2).
    + rewrite !encoder_update_exec.
      assert (Hw' : next_word (with_last_update (now m2) m1)
                    = next_word (with_last_update (now m2) m2)) by exact Hw.
      rewrite Hw'. unfold same_but_output. fields. rewrite !hw_events_app.
      repeat split; congruence.
    + repeat split; assumption.
  - repeat split; assumption.
  - unfold same_but_output, shell_mag, bind, shell_printf, emit. fields.
    rewrite !hw_events_app. simpl. rewrite !app_nil_r.
    repeat split; assumption.
  - unfold same_but_output. fields. repeat split; congruence.
Qed.

Lemma observation_same (cfg : board) (c : call) (m : machine) :
  is_observation c = true -> same_but_output (do_call cfg c m) m.
Proof.
  destruct c; simpl; try discriminate; intros _.
  - apply same_but_output_refl.
  - unfold same_but_output, shell_mag, bind, shell_printf, emit. fields.
    rewrite hw_events_app. simpl. rewrite app_nil_r. repeat split.
Qed.

Lemma run_without_observations (cfg : board) (cs : list call) :
  forall m1 m2 : machine,
    same_but_output m1 m2 ->
    same_but_output (run cfg cs m1) (run cfg (without_observations cs) m2).
Proof.
  induction cs as [|c cs IH]; intros m1 m2 H; simpl; [exact H|].
  destruct (is_observation c) eqn:O; simpl.
  - apply IH. eapply same_but_output_trans; [|exact H].
    apply observation_same, O.
  - apply IH, do_call_same, H.
Qed.

(** X6. Observing does not perturb sampling: taking every [encoder_read]
    and every [mag] command out of an execution leads to a machine with the
    same clock, pins, hardware events (transfers included), last-sample time
    and cached angle; only the shell output differs. *)
Theorem observations_transparent (cfg : board) (cs : list call) (m : machine) :
  same_but_output (run cfg cs m) (run cfg (without_observations cs) m).
Proof. apply run_without_observations, same_but_output_refl. Qed.

(** ** Many calls within one millisecond *)

Lemma do_call_stalled (cfg : board) (c : call) (m : machine) :
  now m <= last_update m -> is_instant c = true ->
  same_but_output (do_call cfg c m) m.
Proof.
  intros Hg Hi.
  destruct (do_call_shape cfg c m) as [(_ & G & _)|(d & evs & _ & Hd & _ & Hq & ->)];
    [lia|].
  rewrite (Hd Hi). unfold same_but_output. fields.
  rewrite hw_events_app, Hq, app_nil_r. repeat split.
Qed.

Lemma run_stalled (cfg : board) (cs : list call) :
  forall m : machine,
    now m <= last_update m ->
    Forall (fun c => is_instant c = true) cs ->
    same_but_output (run cfg cs m) m.
Proof.
  induction cs as [|c cs IH]; intros m Hg Hall; simpl.
  - apply same_but_output_refl.
  - inversion Hall as [|? ? Hc Hcs]; subst.
    pose proof (do_call_stalled cfg c m Hg Hc) as S1.
    eapply same_but_output_trans; [|exact S1].
    apply IH; [|exact Hcs].
    destruct S1 as (E1 & _ & _ & _ & _ & E6 & _). rewrite E1, E6. exact Hg.
Qed.

(** X7. Once [encoder_tick] has run at some clock value, no number of
    further calls of [encoder_tick], [encoder_read] or [mag] at that same
    clock value touches the bus, the pins, the cached angle or the
    last-sample time: whatever the state before, they add shell output
    only. *)
Theorem same_ms_calls_are_silent (cfg : board) (cs : list call) (m : machine) :
  Forall (fun c => is_instant c = true) cs ->
  let m1 := exec (encoder_tick cfg) m in
  same_but_output (run cfg cs m1) m1.
Proof.
  intros Hall m1. apply run_stalled; [|exact Hall].
  subst m1. rewrite encoder_tick_exec.
  destruct (Z.gtb_spec (now m) (last_update m)) as [G|G].
  - rewrite encoder_update_exec. fields. lia.
  - lia.
Qed.

Lemma same_ms_calls_are_silent_witness :
  let cs := [CallTick; CallMag; CallTick; Elapse 0; CallRead; CallTick] in
  let m1 := exec (encoder_tick shared_cs_board) (power_on 9 (stub_bus 0x0040 0)) in
  Forall (fun c => is_instant c = true) cs
  /\ same_but_output (run shared_cs_board cs m1) m1.
Proof.
  intros cs m1.
  assert (H : Forall (fun c => is_instant c = true) cs)
    by (repeat constructor).
  split; [exact H|].
  exact (same_ms_calls_are_silent shared_cs_board cs
           (power_on 9 (stub_bus 0x0040 0)) H).
Defined.

(** ** A host that ticks at most once per millisecond *)

Lemma run_app (cfg : board) (cs cs' : list call) (m : machine) :
  run cfg (cs ++ cs') m = run cfg cs' (run cfg cs m).
Proof. apply fold_left_app. Qed.

(** X8. When the last-sample time is not ahead of the clock, the host
    lets at least one millisecond pass before each tick and the millisecond
    counter does not roll over meanwhile, every tick samples: the transfers
    made are exactly one per tick, at the clock values of the ticks, and the
    last-sample time ends at the clock. *)
Theorem paced_ticks_all_sample (cfg : board) (ds : list N) (m : machine) :
  last_update m <= now m ->
  now m + elapsed_ms (paced_ticks ds) <= ULONG_MAX ->
  let m' := run cfg (paced_ticks ds) m in
  transfer_times (trace m') = transfer_times (trace m) ++ paced_times (now m) ds
  /\ (ds <> [] -> last_update m' = now m').
Proof.
  revert m. induction ds as [|d ds IH]; intros m Hg Hmax m'; subst m'.
  - simpl. rewrite app_nil_r. split; [reflexivity | congruence].
  - change (paced_ticks (d :: ds))
      with ([Elapse (N.succ d); CallTick] ++ paced_ticks ds) in *.
    change (elapsed_ms ([Elapse (N.succ d); CallTick] ++ paced_ticks ds))
      with (Z.of_N (N.succ d) + elapsed_ms (paced_ticks ds)) in Hmax.
    pose proof (elapsed_ms_nonneg (paced_ticks ds)) as H0.
    rewrite run_app.
    set (m1 := run cfg [Elapse (N.succ d); CallTick] m).
    assert (E : m1 = exec (encoder_update cfg)
                       (with_last_update (now m + Z.of_N (N.succ d))
                          (elapse (N.succ d) m))).
    { subst m1. simpl. rewrite encoder_tick_exec. fields.
      rewrite (clock_no_rollover (N.succ d) (now m)) by lia.
      replace (now m + Z.of_N (N.succ d) >? last_update m) with true
        by (symmetry; apply Z.gtb_lt; lia).
      reflexivity. }
    rewrite encoder_update_exec in E. fields_in E.
    rewrite (clock_no_rollover (N.succ d) (now m)) in E by lia.
    assert (H1 : last_update m1 = now m1) by (rewrite E; reflexivity).
    assert (H2 : now m1 = now m + Z.of_N (N.succ d)) by (rewrite E; reflexivity).
    assert (H3 : transfer_times (trace m1)
                 = transfer_times (trace m) ++ [now m + Z.of_N (N.succ d)]).
    { rewrite E. fields. rewrite transfer_times_app. reflexivity. }
    destruct (IH m1) as (T & L); [lia | lia |].
    split.
    + rewrite T, H3, H2, <- app_assoc. reflexivity.
    + intros _. destruct ds as [|d' ds'].
      * simpl. exact H1.
      * apply L. discriminate.
Qed.

Lemma paced_ticks_all_sample_witness :
  let m := power_on 0 (stub_bus 0 0) in
  let m' := run shared_cs_board (paced_ticks [0%N; 4%N; 0%N]) m in
  (last_update m <= now m
   /\ now m + elapsed_ms (paced_ticks [0%N; 4%N; 0%N]) <= ULONG_MAX)
  /\ transfer_times (trace m') = [1; 6; 7]
  /\ last_update m' = now m'.
Proof.
  intros m m'.
  assert (H : last_update m <= now m) by (simpl; lia).
  assert (H' : now m + elapsed_ms (paced_ticks [0%N; 4%N; 0%N]) <= ULONG_MAX)
    by (vm_compute; discriminate).
  split; [split; [exact H | exact H']|].
  destruct (paced_ticks_all_sample shared_cs_board [0%N; 4%N; 0%N] m H H')
    as (T & L).
  split; [exact T | apply L; discriminate].
Defined.

(** ** The [mag] command *)

Lemma string_app_inv_head (p x y : string) :
  (p ++ x = p ++ y)%string -> x = y.
Proof.
  induction p as [|a p IH]; simpl; intros H; [exact H|].
  injection H as H. apply IH, H.
Qed.

Lemma string_app_length (x y : string) :
  String.length (x ++ y) = (String.length x + String.length y)%nat.
Proof. induction x as [|a x IH]; simpl; [reflexivity | rewrite IH; reflexivity]. Qed.

Lemma string_app_inv_tail (x y c : string) :
  (x ++ c = y ++ c)%string -> x = y.
Proof.
  revert y. induction x as [|a x IH]; intros [|b y] H; simpl in H.
  - reflexivity.
  - apply (f_equal String.length) in H.
    rewrite ?string_app_length in H. simpl in H.
    rewrite ?string_app_length in H. lia.
  - apply (f_equal String.length) in H.
    rewrite ?string_app_length in H. simpl in H.
    rewrite ?string_app_length in H. lia.
  - injection H as -> H. f_equal. apply IH, H.
Qed.

Lemma to_int_printable (v : Z) :
  Z.to_int v <> Decimal.Pos Decimal.Nil /\ Z.to_int v <> Decimal.Neg Decimal.Nil.
Proof.
  destruct v as [|p|p]; simpl; split; try discriminate;
    intros [= H]; exact (DecimalPos.Unsigned.to_uint_nonnil p H).
Qed.

Lemma format_value_inj (v v' : Z) : format_value v = format_value v' -> v = v'.
Proof.
  unfold format_value. intros H.
  apply string_app_inv_head, string_app_inv_tail in H.
  apply DecimalZ.to_int_inj.
  destruct (to_int_printable v) as (P & N), (to_int_printable v') as (P' & N').
  pose proof (NilZero.isi (Z.to_int v) P N) as E.
  rewrite H, (NilZero.isi (Z.to_int v') P' N') in E. congruence.
Qed.

(** X9. The [mag] command adds one line of shell output and nothing else
    (bus, pins and both statics are as before), and the line tells the
    cached angle: two runs print the same text exactly when the cached
    angles are equal. *)
Theorem shell_mag_reports_angle (m m' : machine) :
  same_but_output (exec shell_mag m) m
  /\ new_events m (exec shell_mag m)
     = [EvPrintf (format_value (last_encoder_value m))]
  /\ (new_events m (exec shell_mag m) = new_events m' (exec shell_mag m')
      <-> last_encoder_value m = last_encoder_value m').
Proof.
  assert (E : forall x : machine,
             new_events x (exec shell_mag x)
             = [EvPrintf (format_value (last_encoder_value x))]).
  { intros x. apply new_events_app. reflexivity. }
  split; [apply (observation_same shared_cs_board CallMag); reflexivity|].
  split; [apply E|].
  rewrite !E. split.
  - intros H. apply format_value_inj.
    exact (f_equal (fun l => match l with
                             | [EvPrintf text] => text
                             | _ => EmptyString
                             end) H).
  - intros ->. reflexivity.
Qed.

(** ** The calls of [encoder_init] *)

(** X10. [encoder_init] configures the bus before it uses it: SPI.begin on
    the configured pins, bit order MSB first, 1 MHz, mode 1, chip-select
    pin mode and clock level all precede its single transfer; it does not
    write the last-sample time, and whatever the state it is called in (a
    second call included) it samples without consulting the gate. *)
Theorem encoder_init_sequence (cfg : board) (m : machine) :
  let m1 := exec (encoder_init cfg) m in
  new_events m m1
  = [EvSpiBegin (ENCODER_SCK cfg) (ENCODER_DO cfg) (MOSI cfg) (ENCODER_SS cfg);
     EvSetBitOrder MSBFIRST; EvSetFrequency 1000000; EvSetDataMode SPI_MODE1;
     EvPinMode (ENCODER_SS cfg) OUTPUT; EvDigitalWrite (ENCODER_SCK cfg) HIGH;
     EvDigitalWrite (SS cfg) LOW; EvDelayMicroseconds 1;
     EvTransfer16 (now m) 0 (next_word m); EvDigitalWrite (SS cfg) HIGH]
  /\ last_update m1 = last_update m
  /\ now m1 = now m
  /\ bus_transfers (trace (exec (encoder_init cfg) m1))
     = S (S (bus_transfers (trace m))).
Proof.
  intros m1. subst m1. rewrite !encoder_init_exec. fields.
  split; [apply new_events_app; reflexivity|].
  split; [reflexivity|]. split; [reflexivity|].
  rewrite !bus_transfers_app. unfold bus_transfers at 2 3 4 5. simpl. lia.
Qed.

(** ** The clock pulse *)

(** X11. [encoder_clock] raises then lowers the clock pin with a
    microsecond before each edge and returns with that pin low; it makes no
    transfer and leaves every other pin, the pin modes, the cached angle and
    the last-sample time untouched. *)
Theorem encoder_clock_pulse (cfg : board) (m : machine) :
  let m' := exec (encoder_clock cfg) m in
  new_events m m'
  = [EvDelayMicroseconds 1; EvDigitalWrite (ENCODER_SCK cfg) HIGH;
     EvDelayMicroseconds 1; EvDigitalWrite (ENCODER_SCK cfg) LOW]
  /\ pin_levels m' !! ENCODER_SCK cfg = Some LOW
  /\ (forall p : Z, p <> ENCODER_SCK cfg -> pin_levels m' !! p = pin_levels m !! p)
  /\ pin_modes m' = pin_modes m
  /\ last_encoder_value m' = last_encoder_value m
  /\ last_update m' = last_update m.
Proof.
  intros m'.
  assert (E : m' =
    {| now := now m; miso := miso m;
       pin_modes := pin_modes m;
       pin_levels :=
         <[ENCODER_SCK cfg := LOW]> (<[ENCODER_SCK cfg := HIGH]> (pin_levels m));
       trace := trace m ++
         [EvDelayMicroseconds 1; EvDigitalWrite (ENCODER_SCK cfg) HIGH;
          EvDelayMicroseconds 1; EvDigitalWrite (ENCODER_SCK cfg) LOW];
       last_update := last_update m;
       last_encoder_value := last_encoder_value m |}).
  { subst m'.
    cbv [exec encoder_clock bind digitalWrite delayMicroseconds emit snd
         now miso pin_modes pin_levels trace last_update last_encoder_value].
    rewrite <- !app_assoc. reflexivity. }
  rewrite E. fields.
  split; [apply new_events_app; reflexivity|].
  split; [apply lookup_insert_eq|].
  split; [|repeat split].
  intros p Hp. rewrite !lookup_insert_ne by congruence. reflexivity.
Qed.

(** ** A bound on bus traffic *)

Lemma bus_transfers_silent (tr evs : list event) :
  hw_events evs = [] -> bus_transfers (tr ++ evs) = bus_transfers tr.
Proof.
  intros H. rewrite bus_transfers_app. unfold bus_transfers at 2.
  rewrite <- transfer_times_hw_events, H. simpl. lia.
Qed.

Lemma do_call_traffic (cfg : board) (c : call) (m : machine) :
  Z.of_nat (bus_transfers (trace (do_call cfg c m)))
  - Z.of_nat (bus_transfers (trace m))
  <= Z.min (Z.of_nat (ticks_in [c]))
           (last_update (do_call cfg c m) - last_update m).
Proof.
  destruct (do_call_shape cfg c m)
    as [(-> & G & E)|(d & evs & _ & _ & _ & Hq & E)]; rewrite E.
  - rewrite encoder_update_exec. fields.
    rewrite bus_transfers_app. unfold bus_transfers at 2, ticks_in.
    cbn [sample_events transfer_times length List.filter]. lia.
  - fields. rewrite (bus_transfers_silent _ _ Hq).
    unfold ticks_in. destruct c; simpl; lia.
Qed.

(** X12. Bus traffic is bounded twice over: an execution makes no more
    transfers than it has calls of [encoder_tick], and no more than the
    number of milliseconds by which the stored last-sample time advanced;
    when that time was not ahead of the clock at the start and the
    millisecond counter does not roll over during the execution, no more
    than the milliseconds between it and the final clock value. *)
Theorem bus_traffic_bound (cfg : board) (cs : list call) (m : machine) :
  let m' := run cfg cs m in
  let made := Z.of_nat (bus_transfers (trace m'))
              - Z.of_nat (bus_transfers (trace m)) in
  made <= Z.of_nat (ticks_in cs)
  /\ made <= last_update m' - last_update m
  /\ (last_update m <= now m -> now m + elapsed_ms cs <= ULONG_MAX ->
      made <= now m' - last_update m).
Proof.
  intros m' made.
  assert (B : made <= Z.of_nat (ticks_in cs)
              /\ made <= last_update m' - last_update m).
  { subst made m'. revert m.
    induction cs as [|c cs IH]; intros m; simpl; [unfold ticks_in; simpl; lia|].
    pose proof (do_call_traffic cfg c m) as S1.
    destruct (IH (do_call cfg c m)) as (I1 & I2).
    assert (T : ticks_in (c :: cs) = (ticks_in [c] + ticks_in cs)%nat).
    { unfold ticks_in. destruct c; reflexivity. }
    rewrite T. split; lia. }
  destruct B as (B1 & B2). split; [exact B1|]. split; [exact B2|].
  intros Hg Hmax.
  pose proof (proj2 (run_no_rollover cfg cs m Hg Hmax)) as Hc.
  fold m' in Hc. lia.
Qed.

Lemma bus_traffic_bound_witness :
  let cs := [CallTick; CallTick; Elapse 2; CallTick; CallMag; CallTick] in
  let m := power_on 3 (stub_bus 0 0) in
  let m' := run shared_cs_board cs m in
  (last_update m <= now m /\ now m + elapsed_ms cs <= ULONG_MAX)
  /\ Z.of_nat (bus_transfers (trace m')) - Z.of_nat (bus_transfers (trace m))
     <= now m' - last_update m.
Proof.
  intros cs m m'.
  assert (H : last_update m <= now m) by (simpl; lia).
  assert (H' : now m + elapsed_ms cs <= ULONG_MAX) by (vm_compute; discriminate).
  split; [split; [exact H | exact H']|].
  exact (proj2 (proj2 (bus_traffic_bound shared_cs_board cs m)) H H').
Defined.

Lemma shell_mag_reports_angle_witness :
  let m := exec (encoder_init shared_cs_board) (power_on 0 (stub_bus 0x8000 0)) in
  let m' := exec (encoder_init split_cs_board) (power_on 7 (stub_bus 0x803F 0)) in
  last_encoder_value m = last_encoder_value m'
  /\ new_events m (exec shell_mag m) = new_events m' (exec shell_mag m').
Proof.
  intros m m'.
  assert (H : last_encoder_value m = last_encoder_value m') by reflexivity.
  split; [exact H|].
  exact (proj2 (proj2 (proj2 (shell_mag_reports_angle m m'))) H).
Defined.

Lemma encoder_clock_pulse_witness :
  let m := exec (encoder_init shared_cs_board) (power_on 0 (stub_bus 0 0)) in
  let m' := exec (encoder_clock shared_cs_board) m in
  SS shared_cs_board <> ENCODER_SCK shared_cs_board
  /\ pin_levels m' !! SS shared_cs_board = pin_levels m !! SS shared_cs_board.
Proof.
  intros m m'.
  assert (H : SS shared_cs_board <> ENCODER_SCK shared_cs_board)
    by (simpl; lia).
  split; [exact H|].
  exact (proj1 (proj2 (proj2 (encoder_clock_pulse shared_cs_board m)))
           (SS shared_cs_board) H).
Defined.

(** ** The gate at rollover *)

Lemma do_call_frozen (cfg : board) (c : call) (m : machine) :
  0 <= now m <= ULONG_MAX -> last_update m = ULONG_MAX ->
  0 <= now (do_call cfg c m) <= ULONG_MAX
  /\ hw_events (trace (do_call cfg c m)) = hw_events (trace m)
  /\ last_update (do_call cfg c m) = last_update m
  /\ last_encoder_value (do_call cfg c m) = last_encoder_value m.
Proof.
  intros Hn Hu.
  destruct (do_call_shape cfg c m)
    as [(_ & G & _)|(t & evs & -> & _ & _ & Hq & ->)]; [lia|].
  fields. rewrite hw_events_app, Hq, app_nil_r.
  split; [apply clock_in_range, Hn | repeat split].
Qed.

(** X13. Once the stored last-sample time is 4294967295, the last value of
    the 32-bit millisecond counter, [millis() > last_update] cannot hold
    again: whatever time passes and however often [encoder_tick] is called,
    no further transfer is made and the cached angle and the last-sample
    time stay as they are. *)
Theorem sampling_frozen_at_ulong_max (cfg : board) (cs : list call) (m : machine) :
  0 <= now m <= ULONG_MAX -> last_update m = ULONG_MAX ->
  let m' := run cfg cs m in
  hw_events (trace m') = hw_events (trace m)
  /\ last_update m' = last_update m
  /\ last_encoder_value m' = last_encoder_value m.
Proof.
  revert m. induction cs as [|c cs IH]; intros m Hn Hu m'; subst m'; simpl.
  - repeat split.
  - destruct (do_call_frozen cfg c m Hn Hu) as (Hn1 & He1 & Hu1 & Ha1).
    destruct (IH (do_call cfg c m) Hn1) as (He & Hu' & Ha); [congruence|].
    repeat split; congruence.
Qed.

Lemma sampling_frozen_at_ulong_max_witness :
  let m := exec (encoder_tick shared_cs_board)
             (power_on ULONG_MAX (stub_bus 0x0040 0xFFC0)) in
  let cs := [Elapse 1; CallTick; Elapse 1000; CallTick; CallTick] in
  let m' := run shared_cs_board cs m in
  (0 <= now m <= ULONG_MAX /\ last_update m = ULONG_MAX)
  /\ now m' = 1000
  /\ bus_transfers (trace m') = 1%nat
  /\ last_encoder_value m' = 1.
Proof.
  intros m cs m'.
  assert (Hn : 0 <= now m <= ULONG_MAX) by (split; vm_compute; discriminate).
  assert (Hu : last_update m = ULONG_MAX) by reflexivity.
  split; [split; [exact Hn | exact Hu]|].
  destruct (sampling_frozen_at_ulong_max shared_cs_board cs m Hn Hu)
    as (He & _ & Ha).
  split; [vm_compute; reflexivity|].
  split.
  - unfold bus_transfers.
    rewrite <- (transfer_times_hw_events (trace m')). fold m' in He.
    rewrite He. vm_compute. reflexivity.
  - fold m' in Ha. rewrite Ha. vm_compute. reflexivity.
Defined.
